(** * StringField: rendering of string columns and literals

    A shallow embedding of [postgres/string_field.go] (package [sq]).

    Go values are modelled as follows.
    - A [string] is a [String.string] (a sequence of bytes).
    - A pointer ([*string], [*bool]) is [option loc]: [None] is the nil
      pointer, [Some p] the address of a cell of the heap.  The heap is a
      pair of finite maps; taking the address of a local ([&s], [&desc])
      allocates a fresh cell.
    - A slice is [nil_slice] or [Slice l]; [range] and [append] see only
      its elements.
    - An interface value is [None] (the nil interface) or [Some] of an
      implementation; calling a method on the nil interface panics.
    - [buf *strings.Builder] and [args *[]interface{}] are the contents of
      the caller's builder and argument slice (both pointers non-nil),
      threaded through a state monad that can also panic.
    - The methods of a [Table] are functions: they return and have no
      effect. *)

From Stdlib Require Import Ascii.
From stdpp Require Import gmap strings list fin_maps.

Abbreviation loc := positive.

(** ** Strings *)

(** The double quote character, written with its code. *)
Definition dquote : string := String "034"%char "".

(** The characters tested by the identifier quoting: space and tab. *)
Definition space_tab : string := String " "%char (String "009"%char "").

(** [strings.IndexByte(chars, c) >= 0] *)
Fixpoint ContainsByte (chars : string) (c : ascii) : bool :=
  match chars with
  | EmptyString => false
  | String d chars' => if decide (c = d) then true else ContainsByte chars' c
  end.

(** [strings.ContainsAny(s, chars)] for [chars] made of ASCII characters:
    a byte of [s] is one of [chars]. *)
Fixpoint ContainsAny (s chars : string) : bool :=
  match s with
  | EmptyString => false
  | String c s' => if ContainsByte chars c then true else ContainsAny s' chars
  end.

(** ** Slices *)

Inductive slice (A : Type) : Type :=
  | nil_slice
  | Slice (elts : list A).
Arguments nil_slice {A}.
Arguments Slice {A} elts.

(** The elements a [range] loop visits. *)
Definition elements_of {A} (s : slice A) : list A :=
  match s with
  | nil_slice => []
  | Slice l => l
  end.

(** The built-in [append(s, x)]. *)
Definition append {A} (s : slice A) (x : A) : slice A :=
  Slice (elements_of s ++ [x]).

(** ** The heap *)

Record Heap : Type := mkHeap {
  string_cells : gmap loc string;
  bool_cells : gmap loc bool
}.

Definition empty_heap : Heap := mkHeap ∅ ∅.

(** [&s] for a string local [s] that escapes. *)
Definition new_string (s : string) (h : Heap) : loc * Heap :=
  let p := fresh (dom (string_cells h)) in
  (p, mkHeap (<[p := s]> (string_cells h)) (bool_cells h)).

(** [&b] for a bool local [b] that escapes. *)
Definition new_bool (b : bool) (h : Heap) : loc * Heap :=
  let p := fresh (dom (bool_cells h)) in
  (p, mkHeap (string_cells h) (<[p := b]> (bool_cells h))).

(** [*p] *)
Definition load_string (h : Heap) (p : loc) : string := string_cells h !!! p.
Definition load_bool (h : Heap) (p : loc) : bool := bool_cells h !!! p.

(** ** Interfaces declared elsewhere in the package *)

(** Modelled from the spec: the [Table] interface is declared in another
    file; section 6 gives its two methods. *)
Class Table (T : Type) : Type := {
  GetAlias : T → string;
  GetName : T → string
}.

(** Modelled from the spec: the [Query] interface is declared in another
    file; [In] uses only its method [NestThis]. *)
Class Query (Q : Type) : Type := {
  NestThis : Q → Q
}.

(** A table given by its name and alias, and a query given by its text,
    to run the definitions on. *)
Record NamedTable : Type := mkNamedTable {
  table_name : string;
  table_alias : string
}.

#[export] Instance NamedTable_Table : Table NamedTable :=
  {| GetAlias := table_alias; GetName := table_name |}.

Record TextQuery : Type := mkTextQuery {
  query_text : string;
  nested : bool
}.

#[export] Instance TextQuery_Query : Query TextQuery :=
  {| NestThis q := mkTextQuery (query_text q) true |}.

(** ** Outcomes of a call *)

Inductive Outcome (A : Type) : Type :=
  | Returned (a : A)
  | Panicked.
Arguments Returned {A} a.
Arguments Panicked {A}.

Section Field.

Context {T : Type} `{Table T}.
Context {Q : Type} `{Query Q}.
(** Modelled from the spec: [RowValue] is declared in another file. *)
Context {RowValue : Type}.
(** Dynamic values of any other type held by an [interface{}]. *)
Context {Other : Type}.

(** ** The data model *)

Record StringField : Type := mkStringField {
  value : option loc;
  alias : string;
  table : option T;
  name : string;
  descending : option loc;
  nullsfirst : option loc
}.

(** The dynamic values of [interface{}] that this file builds or inspects. *)
Inductive Any : Type :=
  | AnyString (s : string)
  | AnyStringField (f : StringField)
  | AnyRowValue (r : RowValue)
  | AnyQuery (q : Q)
  | AnyOther (o : Other).

(** ** The render monad: the builder and the argument slice, or a panic *)

Record Output : Type := mkOutput {
  buf : string;
  args : slice Any
}.

Definition Render (A : Type) : Type := Output → Outcome (A * Output).

#[export] Instance Render_ret : MRet Render := λ A a out, Returned (a, out).

#[export] Instance Render_bind : MBind Render := λ A B k m out,
  match m out with
  | Returned (a, out') => k a out'
  | Panicked => Panicked
  end.

Definition panic {A} : Render A := λ _, Panicked.

(** [buf.WriteString(s)] *)
Definition WriteString (s : string) : Render unit :=
  λ out, Returned (tt, mkOutput (buf out +:+ s) (args out)).

(** [*args = append( *args, v)] *)
Definition AppendArg (v : Any) : Render unit :=
  λ out, Returned (tt, mkOutput (buf out) (append (args out) v)).

(** The receiver of an interface method call: the nil interface panics. *)
Definition receiver {A} (i : option A) : Render A :=
  match i with
  | Some a => mret a
  | None => panic
  end.

(** The loop over [excludedTableQualifiers]: the qualifier becomes empty at
    the first equal element. *)
Fixpoint exclude_loop (tableQualifier : string) (excluded : list string) : string :=
  match excluded with
  | [] => tableQualifier
  | e :: rest => if decide (tableQualifier = e) then "" else exclude_loop tableQualifier rest
  end.

Definition AppendSQLExclude (h : Heap) (f : StringField)
    (excludedTableQualifiers : slice string) : Render unit :=
  match value f with
  | Some p =>
      WriteString "?" ;;
      AppendArg (AnyString (load_string h p))
  | None =>
      t ← receiver (table f);
      let tableQualifier := GetAlias t in
      let tableQualifier :=
        if decide (tableQualifier = "") then GetName t else tableQualifier in
      let tableQualifier :=
        exclude_loop tableQualifier (elements_of excludedTableQualifiers) in
      (if decide (tableQualifier ≠ "") then
         if ContainsAny tableQualifier space_tab then
           WriteString dquote ;;
           WriteString tableQualifier ;;
           WriteString (dquote +:+ ".")
         else
           WriteString tableQualifier ;;
           WriteString "."
       else mret tt) ;;
      if ContainsAny (name f) space_tab then
        WriteString dquote ;;
        WriteString (name f) ;;
        WriteString dquote
      else
        WriteString (name f)
  end ;;
  match descending f with
  | Some p => if load_bool h p then WriteString " DESC" else WriteString " ASC"
  | None => mret tt
  end ;;
  match nullsfirst f with
  | Some p => if load_bool h p then WriteString " NULLS FIRST" else WriteString " NULLS LAST"
  | None => mret tt
  end.

(** [NewStringField(name, table)] *)
Definition NewStringField (name : string) (table : option T) : StringField :=
  mkStringField None "" table name None None.

(** [NewEnumField(name, table)]: [EnumField] is an alias of [StringField]. *)
Definition NewEnumField (name : string) (table : option T) : StringField :=
  NewStringField name table.

(** [String(s)]: the literal holds the address of its own copy of [s]. *)
Definition String_ (s : string) (h : Heap) : StringField * Heap :=
  let '(p, h') := new_string s h in
  (mkStringField (Some p) "" None "" None None, h').

(** ** Assignments *)

(** Modelled from the spec: the struct [FieldAssignment] is declared in
    another file; its two members are interface values, of which this file
    stores a [StringField] in [Field] and any value in [Value]. *)
Record FieldAssignment : Type := mkFieldAssignment {
  Field : Any;
  Value : Any
}.

Definition Set_ (f : StringField) (value : Any) : FieldAssignment :=
  {| Field := AnyStringField f; Value := value |}.

Definition SetString (f : StringField) (s : string) : FieldAssignment :=
  {| Field := AnyStringField f; Value := AnyString s |}.

(** ** Decorators

    The receiver is a copy of the caller's struct; a decorator assigns one
    member of the copy and returns it.  The three pointer members of the
    copy still point to the cells of the original. *)

Definition As (f : StringField) (alias : string) : StringField :=
  mkStringField (value f) alias (table f) (name f) (descending f) (nullsfirst f).

Definition Asc (f : StringField) (h : Heap) : StringField * Heap :=
  let '(desc, h') := new_bool false h in
  (mkStringField (value f) (alias f) (table f) (name f) (Some desc) (nullsfirst f), h').

Definition Desc (f : StringField) (h : Heap) : StringField * Heap :=
  let '(desc, h') := new_bool true h in
  (mkStringField (value f) (alias f) (table f) (name f) (Some desc) (nullsfirst f), h').

Definition NullsFirst (f : StringField) (h : Heap) : StringField * Heap :=
  let '(nullsfirst', h') := new_bool true h in
  (mkStringField (value f) (alias f) (table f) (name f) (descending f) (Some nullsfirst'), h').

Definition NullsLast (f : StringField) (h : Heap) : StringField * Heap :=
  let '(nullsfirst', h') := new_bool false h in
  (mkStringField (value f) (alias f) (table f) (name f) (descending f) (Some nullsfirst'), h').

(** ** Predicates *)

(** Modelled from the spec: the struct [CustomPredicate] is declared in
    another file; it holds a template and its operands. *)
Record CustomPredicate : Type := mkCustomPredicate {
  Format : string;
  Values : slice Any
}.

Definition IsNull (f : StringField) : CustomPredicate :=
  {| Format := "? IS NULL"; Values := Slice [AnyStringField f] |}.

Definition IsNotNull (f : StringField) : CustomPredicate :=
  {| Format := "? IS NOT NULL"; Values := Slice [AnyStringField f] |}.

Definition Eq (f field : StringField) : CustomPredicate :=
  {| Format := "? = ?"; Values := Slice [AnyStringField f; AnyStringField field] |}.

Definition Ne (f field : StringField) : CustomPredicate :=
  {| Format := "? <> ?"; Values := Slice [AnyStringField f; AnyStringField field] |}.

Definition Gt (f field : StringField) : CustomPredicate :=
  {| Format := "? > ?"; Values := Slice [AnyStringField f; AnyStringField field] |}.

Definition Ge (f field : StringField) : CustomPredicate :=
  {| Format := "? >= ?"; Values := Slice [AnyStringField f; AnyStringField field] |}.

Definition Lt (f field : StringField) : CustomPredicate :=
  {| Format := "? < ?"; Values := Slice [AnyStringField f; AnyStringField field] |}.

Definition Le (f field : StringField) : CustomPredicate :=
  {| Format := "? <= ?"; Values := Slice [AnyStringField f; AnyStringField field] |}.

Definition EqString (f : StringField) (s : string) : CustomPredicate :=
  {| Format := "? = ?"; Values := Slice [AnyStringField f; AnyString s] |}.

Definition NeString (f : StringField) (s : string) : CustomPredicate :=
  {| Format := "? <> ?"; Values := Slice [AnyStringField f; AnyString s] |}.

Definition GtString (f : StringField) (s : string) : CustomPredicate :=
  {| Format := "? > ?"; Values := Slice [AnyStringField f; AnyString s] |}.

Definition GeString (f : StringField) (s : string) : CustomPredicate :=
  {| Format := "? >= ?"; Values := Slice [AnyStringField f; AnyString s] |}.

Definition LtString (f : StringField) (s : string) : CustomPredicate :=
  {| Format := "? < ?"; Values := Slice [AnyStringField f; AnyString s] |}.

Definition LeString (f : StringField) (s : string) : CustomPredicate :=
  {| Format := "? <= ?"; Values := Slice [AnyStringField f; AnyString s] |}.

Definition LikeString (f : StringField) (s : string) : CustomPredicate :=
  {| Format := "? LIKE ?"; Values := Slice [AnyStringField f; AnyString s] |}.

Definition NotLikeString (f : StringField) (s : string) : CustomPredicate :=
  {| Format := "? NOT LIKE ?"; Values := Slice [AnyStringField f; AnyString s] |}.

Definition ILikeString (f : StringField) (s : string) : CustomPredicate :=
  {| Format := "? ILIKE ?"; Values := Slice [AnyStringField f; AnyString s] |}.

Definition NotILikeString (f : StringField) (s : string) : CustomPredicate :=
  {| Format := "? NOT ILIKE ?"; Values := Slice [AnyStringField f; AnyString s] |}.

(** [In]: the type switch on the dynamic type of [v]. *)
Definition In_ (f : StringField) (v : Any) : CustomPredicate :=
  match v with
  | AnyRowValue r =>
      {| Format := "? IN ?"; Values := Slice [AnyStringField f; AnyRowValue r] |}
  | AnyQuery q =>
      {| Format := "? IN (?)"; Values := Slice [AnyStringField f; AnyQuery (NestThis q)] |}
  | _ =>
      {| Format := "? IN (?)"; Values := Slice [AnyStringField f; v] |}
  end.

(** The methods [GetAlias] and [GetName] of the field itself. *)
Definition StringField_GetAlias (f : StringField) : string := alias f.
Definition StringField_GetName (f : StringField) : string := name f.

(** ** Notions used to state the properties *)

(** The text written for an identifier: wrapped in double quotes when
    [strings.ContainsAny(ident, " \t")], verbatim otherwise. *)
Definition quoted (ident : string) : string :=
  if ContainsAny ident space_tab then dquote +:+ ident +:+ dquote else ident.

(** The string contains a space or a tab. *)
Definition has_whitespace (s : string) : Prop :=
  " "%char ∈ String.list_ascii_of_string s ∨
  "009"%char ∈ String.list_ascii_of_string s.

(** The table qualifier before exclusion: the alias, or the name when the
    alias is empty. *)
Definition effective_qualifier (t : T) : string :=
  if decide (GetAlias t = "") then GetName t else GetAlias t.

(** The text written for the qualifier [q] left by the exclusion loop:
    nothing when it is empty, the identifier and a dot otherwise. *)
Definition qualifier_text (q : string) : string :=
  if decide (q ≠ "") then quoted q +:+ "." else "".

(** The decorations as values: [Some true], [Some false], or [None] when
    the pointer is nil. *)
Definition descending_set (h : Heap) (f : StringField) : option bool :=
  load_bool h <$> descending f.
Definition nullsfirst_set (h : Heap) (f : StringField) : option bool :=
  load_bool h <$> nullsfirst f.

Definition direction_text (h : Heap) (f : StringField) : string :=
  match descending_set h f with
  | Some true => " DESC"
  | Some false => " ASC"
  | None => ""
  end.

Definition nulls_text (h : Heap) (f : StringField) : string :=
  match nullsfirst_set h f with
  | Some true => " NULLS FIRST"
  | Some false => " NULLS LAST"
  | None => ""
  end.

(** The same field with both decorations nil. *)
Definition without_order (f : StringField) : StringField :=
  mkStringField (value f) (alias f) (table f) (name f) None None.

(** A pointer is nil or the address of a cell of the map. *)
Definition points_into {V} (m : gmap loc V) (p : option loc) : bool :=
  match p with
  | None => true
  | Some l => match m !! l with Some _ => true | None => false end
  end.

(** Every pointer of the field is nil or the address of a cell of the heap:
    what holds in Go of every field that exists at a moment when the heap
    is [h]. *)
Definition allocated (h : Heap) (g : StringField) : bool :=
  points_into (string_cells h) (value g) &&
  points_into (bool_cells h) (descending g) &&
  points_into (bool_cells h) (nullsfirst g).

(** A call of one of the five decorator methods. *)
Inductive decorator : Type :=
  | CallAs (alias : string)
  | CallAsc
  | CallDesc
  | CallNullsFirst
  | CallNullsLast.

Definition call (d : decorator) (f : StringField) (h : Heap) : StringField * Heap :=
  match d with
  | CallAs a => (As f a, h)
  | CallAsc => Asc f h
  | CallDesc => Desc f h
  | CallNullsFirst => NullsFirst f h
  | CallNullsLast => NullsLast f h
  end.

(** A chain [f.d1().d2()...]: each call's receiver is the previous result. *)
Fixpoint chain (ds : list decorator) (f : StringField) (h : Heap) : StringField * Heap :=
  match ds with
  | [] => (f, h)
  | d :: ds' => let '(f', h') := call d f h in chain ds' f' h'
  end.

(** [calls h h']: the heap [h'] is reached from [h] by decorator calls, on
    any receivers and in any number. *)
Inductive calls : Heap → Heap → Prop :=
  | calls_none h : calls h h
  | calls_more h d f h' : calls (call d f h).2 h' → calls h h'.

(** The number of [?] markers of a template. *)
Fixpoint count_placeholders (template : string) : nat :=
  match template with
  | EmptyString => 0
  | String c rest =>
      (if decide (c = "?"%char) then 1 else 0) + count_placeholders rest
  end.

(** The markers of a predicate's template and the number of its operands. *)
Definition arity (p : CustomPredicate) : nat * nat :=
  (count_placeholders (Format p), length (elements_of (Values p))).

(** [extends h h']: every cell of [h] is a cell of [h'], with the same
    content. *)
Definition extends (h h' : Heap) : Prop :=
  string_cells h ⊆ string_cells h' ∧ bool_cells h ⊆ bool_cells h'.


(** *** Notions for chains of decorator calls *)

(** The word written for a direction, and for a nulls ordering. *)
Definition direction_word (d : option bool) : string :=
  match d with
  | Some true => " DESC"
  | Some false => " ASC"
  | None => ""
  end.

Definition nulls_word (n : option bool) : string :=
  match n with
  | Some true => " NULLS FIRST"
  | Some false => " NULLS LAST"
  | None => ""
  end.

(** The direction after the calls [ds], from the direction [cur] before
    them: that of the last [Asc] or [Desc], if any. *)
Fixpoint direction_after (ds : list decorator) (cur : option bool) : option bool :=
  match ds with
  | [] => cur
  | CallAsc :: ds' => direction_after ds' (Some false)
  | CallDesc :: ds' => direction_after ds' (Some true)
  | _ :: ds' => direction_after ds' cur
  end.

(** The nulls ordering after the calls [ds]: that of the last [NullsFirst]
    or [NullsLast], if any. *)
Fixpoint nulls_after (ds : list decorator) (cur : option bool) : option bool :=
  match ds with
  | [] => cur
  | CallNullsFirst :: ds' => nulls_after ds' (Some true)
  | CallNullsLast :: ds' => nulls_after ds' (Some false)
  | _ :: ds' => nulls_after ds' cur
  end.

(** The alias after the calls [ds]: that of the last [As], if any. *)
Fixpoint alias_after (ds : list decorator) (cur : string) : string :=
  match ds with
  | [] => cur
  | CallAs a :: ds' => alias_after ds' a
  | _ :: ds' => alias_after ds' cur
  end.

(** The field with another table. *)
Definition on_table (f : StringField) (t : option T) : StringField :=
  mkStringField (value f) (alias f) t (name f) (descending f) (nullsfirst f).

(** ** Strings: facts used below *)

Lemma string_app_assoc (s1 s2 s3 : string) :
  (s1 +:+ s2) +:+ s3 = s1 +:+ (s2 +:+ s3).
Proof.
  induction s1 as [|c s1 IH]; [reflexivity|].
  change (String c ((s1 +:+ s2) +:+ s3) = String c (s1 +:+ (s2 +:+ s3))).
  by rewrite IH.
Qed.

Lemma string_app_empty_r (s : string) : s +:+ "" = s.
Proof.
  induction s as [|c s IH]; [reflexivity|].
  change (String c (s +:+ "") = String c s). by rewrite IH.
Qed.

Lemma string_app_length (s1 s2 : string) :
  String.length (s1 +:+ s2) = String.length s1 + String.length s2.
Proof.
  induction s1 as [|c s1 IH]; [reflexivity|].
  change (S (String.length (s1 +:+ s2)) = S (String.length s1 + String.length s2)).
  by rewrite IH.
Qed.

Lemma ContainsByte_spec (chars : string) (c : ascii) :
  ContainsByte chars c = true ↔ c ∈ String.list_ascii_of_string chars.
Proof.
  induction chars as [|d chars IH]; simpl.
  - split; [discriminate | by intros ?%elem_of_nil].
  - rewrite elem_of_cons. destruct (decide (c = d)) as [->|Hne].
    + split; auto.
    + rewrite IH. split; [auto | by intros [?|?]].
Qed.

(** [ContainsAny] with the characters space and tab decides
    [has_whitespace]. *)
Lemma ContainsAny_space_tab (s : string) :
  ContainsAny s space_tab = true ↔ has_whitespace s.
Proof.
  unfold has_whitespace. induction s as [|c s IH].
  - split; [discriminate | by intros [?%elem_of_nil|?%elem_of_nil]].
  - change (ContainsAny (String c s) space_tab)
      with (if ContainsByte space_tab c then true else ContainsAny s space_tab).
    change (String.list_ascii_of_string (String c s))
      with (c :: String.list_ascii_of_string s).
    rewrite !elem_of_cons.
    destruct (ContainsByte space_tab c) eqn:Hc.
    + apply ContainsByte_spec in Hc.
      change (String.list_ascii_of_string space_tab)
        with [" "%char; "009"%char] in Hc.
      rewrite !elem_of_cons in Hc.
      destruct Hc as [->|[->|?%elem_of_nil]]; [| |done]; split; auto.
    + rewrite IH.
      assert (" "%char ≠ c ∧ "009"%char ≠ c) as [??].
      { split; intros <-; discriminate Hc. }
      tauto.
Qed.

Lemma quoted_whitespace (s : string) :
  has_whitespace s → quoted s = dquote +:+ s +:+ dquote.
Proof. intros Hs%ContainsAny_space_tab. unfold quoted. by rewrite Hs. Qed.

Lemma quoted_plain (s : string) : ¬ has_whitespace s → quoted s = s.
Proof.
  intros Hs. unfold quoted.
  destruct (ContainsAny s space_tab) eqn:E; [|done].
  by apply ContainsAny_space_tab in E.
Qed.

(** A wrapped identifier is never the identifier itself. *)
Lemma wrapped_differs (s : string) : dquote +:+ s +:+ dquote ≠ s.
Proof.
  intros E%(f_equal String.length). rewrite !string_app_length in E.
  simpl in E. lia.
Qed.

(** ** Rendering: the three cases of [AppendSQLExclude] *)

Ltac run_render :=
  cbv [mbind mret Render_bind Render_ret WriteString AppendArg receiver panic
       buf args];
  rewrite ?string_app_assoc, ?string_app_empty_r.

Lemma AppendSQLExclude_literal h f p excl out :
  value f = Some p →
  AppendSQLExclude h f excl out =
    Returned (tt, mkOutput
      (buf out +:+ "?" +:+ direction_text h f +:+ nulls_text h f)
      (append (args out) (AnyString (load_string h p)))).
Proof.
  intros Hv. destruct out as [b a].
  unfold AppendSQLExclude, direction_text, nulls_text, descending_set,
    nullsfirst_set.
  rewrite Hv.
  destruct (descending f) as [pd|], (nullsfirst f) as [pn|]; simpl;
    repeat match goal with |- context [load_bool h ?x] => destruct (load_bool h x) end;
    run_render; reflexivity.
Qed.

Lemma AppendSQLExclude_column h f t excl out :
  value f = None → table f = Some t →
  AppendSQLExclude h f excl out =
    Returned (tt, mkOutput
      (buf out +:+
       qualifier_text (exclude_loop (effective_qualifier t) (elements_of excl)) +:+
       quoted (name f) +:+ direction_text h f +:+ nulls_text h f)
      (args out)).
Proof.
  intros Hv Ht. destruct out as [b a].
  unfold AppendSQLExclude, direction_text, nulls_text, descending_set,
    nullsfirst_set, qualifier_text, quoted, effective_qualifier.
  rewrite Hv, Ht. cbv [mbind Render_bind receiver mret Render_ret].
  set (q := exclude_loop _ _).
  destruct (decide (q ≠ "")), (ContainsAny q space_tab),
    (ContainsAny (name f) space_tab),
    (descending f) as [pd|], (nullsfirst f) as [pn|]; simpl;
    repeat match goal with |- context [load_bool h ?x] => destruct (load_bool h x) end;
    run_render; reflexivity.
Qed.

Lemma AppendSQLExclude_nil_table h f excl out :
  value f = None → table f = None →
  AppendSQLExclude h f excl out = Panicked.
Proof.
  intros Hv Ht. unfold AppendSQLExclude. rewrite Hv, Ht. reflexivity.
Qed.

(** ** The heap: allocation leaves the existing cells as they are *)

Lemma extends_refl h : extends h h.
Proof. by split. Qed.

Lemma extends_trans h1 h2 h3 : extends h1 h2 → extends h2 h3 → extends h1 h3.
Proof. intros [??] [??]. split; by etrans. Qed.

Lemma new_bool_extends b h : extends h (new_bool b h).2.
Proof.
  split; simpl; [done|].
  apply insert_subseteq, not_elem_of_dom, is_fresh.
Qed.

Lemma new_bool_fresh b h :
  bool_cells h !! (new_bool b h).1 = None ∧
  load_bool (new_bool b h).2 (new_bool b h).1 = b.
Proof.
  split.
  - apply not_elem_of_dom, is_fresh.
  - unfold load_bool. simpl. by rewrite lookup_total_insert_eq.
Qed.

Lemma new_string_extends s h : extends h (new_string s h).2.
Proof.
  split; simpl; [|done].
  apply insert_subseteq, not_elem_of_dom, is_fresh.
Qed.

Lemma call_extends d f h : extends h (call d f h).2.
Proof.
  destruct d; simpl; try apply extends_refl; apply new_bool_extends.
Qed.

Lemma calls_extends h h' : calls h h' → extends h h'.
Proof.
  induction 1 as [h|h d f h' _ IH]; [apply extends_refl|].
  eapply extends_trans; [apply call_extends | exact IH].
Qed.

Lemma calls_chain ds f h : calls h (chain ds f h).2.
Proof.
  revert f h. induction ds as [|d ds IH]; intros f h; simpl.
  - apply calls_none.
  - apply (calls_more h d f). destruct (call d f h) as [f' h'] eqn:E.
    simpl. apply IH.
Qed.

Lemma points_into_load {V} `{Inhabited V} (m m' : gmap loc V) (p : loc) :
  m ⊆ m' → points_into m (Some p) = true → m' !!! p = m !!! p.
Proof.
  intros Hsub Hp. simpl in Hp.
  destruct (m !! p) as [v|] eqn:E; [|discriminate].
  rewrite (lookup_total_correct m p v E).
  apply lookup_total_correct. by eapply lookup_weaken.
Qed.

Lemma points_into_weaken {V} (m m' : gmap loc V) (p : option loc) :
  m ⊆ m' → points_into m p = true → points_into m' p = true.
Proof.
  intros Hsub. destruct p as [l|]; simpl; [|done].
  destruct (m !! l) as [v|] eqn:E; [|discriminate].
  by rewrite (lookup_weaken _ _ _ _ E Hsub).
Qed.

Lemma allocated_spec h g :
  allocated h g = true ↔
    points_into (string_cells h) (value g) = true ∧
    points_into (bool_cells h) (descending g) = true ∧
    points_into (bool_cells h) (nullsfirst g) = true.
Proof. unfold allocated. rewrite !andb_true_iff. tauto. Qed.

Lemma allocated_extends h h' g :
  extends h h' → allocated h g = true → allocated h' g = true.
Proof.
  intros [Hs Hb]. rewrite !allocated_spec. intros (?&?&?).
  repeat split; eapply points_into_weaken; eassumption.
Qed.

(** Rendering reads the heap only through the pointers of the field. *)
Lemma AppendSQLExclude_extends h h' g excl out :
  extends h h' → allocated h g = true →
  AppendSQLExclude h' g excl out = AppendSQLExclude h g excl out.
Proof.
  intros [Hs Hb] (Hv & Hd & Hn)%allocated_spec.
  unfold AppendSQLExclude, load_string, load_bool.
  destruct (value g) as [pv|], (descending g) as [pd|], (nullsfirst g) as [pn|];
    rewrite ?(points_into_load _ _ pv Hs Hv), ?(points_into_load _ _ pd Hb Hd),
      ?(points_into_load _ _ pn Hb Hn); reflexivity.
Qed.

(** ** The exclusion loop *)

Lemma exclude_loop_elem (q : string) (excluded : list string) :
  q ∈ excluded → exclude_loop q excluded = "".
Proof.
  induction excluded as [|e rest IH]; simpl.
  - by intros ?%elem_of_nil.
  - intros [->|Hin]%elem_of_cons; case_decide; auto; congruence.
Qed.

Lemma exclude_loop_not_elem (q : string) (excluded : list string) :
  q ∉ excluded → exclude_loop q excluded = q.
Proof.
  induction excluded as [|e rest IH]; simpl; [done|].
  intros [Hne Hnin]%not_elem_of_cons. case_decide; [done|]. by apply IH.
Qed.

(** ** Properties *)

(** C1: for every string [v], rendering the literal [String(v)], with any
    excluded qualifiers, writes exactly the fragment "?" and appends exactly
    the value [v] to the argument list. *)
Theorem String_renders_placeholder (v : string) (h : Heap)
    (excl : slice string) (out : Output) :
  AppendSQLExclude (String_ v h).2 (String_ v h).1 excl out =
    Returned (tt, mkOutput (buf out +:+ "?") (append (args out) (AnyString v)))
  ∧ elements_of (append (args out) (AnyString v)) =
      elements_of (args out) ++ [AnyString v].
Proof.
  split; [|reflexivity].
  unfold String_, new_string. cbv zeta. simpl.
  erewrite AppendSQLExclude_literal by reflexivity.
  unfold load_string, direction_text, nulls_text. simpl.
  by rewrite lookup_total_insert_eq, !string_app_empty_r.
Qed.

(** C9: the output alias is never written: for every field [f] and alias
    [a], rendering [f.As(a)] gives the same fragment and arguments as
    rendering [f], whatever the excluded qualifiers (and panics when
    rendering [f] does). *)
Theorem As_not_rendered (h : Heap) (f : StringField) (a : string)
    (excl : slice string) (out : Output) :
  AppendSQLExclude h (As f a) excl out = AppendSQLExclude h f excl out.
Proof.
  destruct f as [v al t n d nf]. unfold As, AppendSQLExclude. simpl.
  reflexivity.
Qed.

(** C10: [f.Set(s)] on a string [s] and [f.SetString(s)] are the same
    assignment: same [Field], same [Value]. *)
Theorem Set_SetString (f : StringField) (s : string) :
  Set_ f (AnyString s) = SetString f s
  ∧ Field (Set_ f (AnyString s)) = AnyStringField f
  ∧ Value (SetString f s) = AnyString s.
Proof. unfold Set_, SetString. simpl. auto. Qed.

(** C6: [f.In(v)] chooses the predicate by the dynamic type of [v]: a
    [RowValue] gives "? IN ?" with operands [f, v]; a [Query] gives
    "? IN (?)" with operands [f, v.NestThis()]; any other value gives
    "? IN (?)" with operands [f, v]. *)
Theorem In_dispatch (f : StringField) :
  (∀ r, In_ f (AnyRowValue r) =
     {| Format := "? IN ?"; Values := Slice [AnyStringField f; AnyRowValue r] |})
  ∧ (∀ q, In_ f (AnyQuery q) =
     {| Format := "? IN (?)";
        Values := Slice [AnyStringField f; AnyQuery (NestThis q)] |})
  ∧ (∀ s, In_ f (AnyString s) =
     {| Format := "? IN (?)"; Values := Slice [AnyStringField f; AnyString s] |})
  ∧ (∀ g, In_ f (AnyStringField g) =
     {| Format := "? IN (?)";
        Values := Slice [AnyStringField f; AnyStringField g] |})
  ∧ (∀ o, In_ f (AnyOther o) =
     {| Format := "? IN (?)"; Values := Slice [AnyStringField f; AnyOther o] |}).
Proof. repeat split; intros; unfold In_; reflexivity. Qed.

(** C7: each of the sixteen comparison and pattern builders makes a
    predicate with exactly two [?] markers and exactly two operands;
    [IsNull] and [IsNotNull] make one with one marker and one operand. *)
Theorem predicate_arity (f field : StringField) (s : string) :
  arity (Eq f field) = (2, 2) ∧ arity (Ne f field) = (2, 2) ∧
  arity (Gt f field) = (2, 2) ∧ arity (Ge f field) = (2, 2) ∧
  arity (Lt f field) = (2, 2) ∧ arity (Le f field) = (2, 2) ∧
  arity (EqString f s) = (2, 2) ∧ arity (NeString f s) = (2, 2) ∧
  arity (GtString f s) = (2, 2) ∧ arity (GeString f s) = (2, 2) ∧
  arity (LtString f s) = (2, 2) ∧ arity (LeString f s) = (2, 2) ∧
  arity (LikeString f s) = (2, 2) ∧ arity (NotLikeString f s) = (2, 2) ∧
  arity (ILikeString f s) = (2, 2) ∧ arity (NotILikeString f s) = (2, 2) ∧
  arity (IsNull f) = (1, 1) ∧ arity (IsNotNull f) = (1, 1).
Proof. unfold arity. repeat split; vm_compute; reflexivity. Qed.

(** C4, amended: for every field that is a literal or a column whose table
    is not the nil interface, the render returns, and it is the render of
    the field without decorations followed by a direction text [d] and a
    nulls text [n]; [d] is " DESC" exactly when the descending decoration is
    set true, " ASC" exactly when it is set false and empty exactly when it
    is not set; [n] is " NULLS FIRST", " NULLS LAST" or empty in the same
    way, independently of [d]; the arguments are those of the render
    without decorations. *)
Theorem order_nulls_suffix (h : Heap) (f : StringField)
    (excl : slice string) (out : Output) :
  value f ≠ None ∨ table f ≠ None →
  ∃ (base : Output) (d n : string),
    AppendSQLExclude h (without_order f) excl out = Returned (tt, base)
    ∧ AppendSQLExclude h f excl out =
        Returned (tt, mkOutput (buf base +:+ d +:+ n) (args base))
    ∧ (d = " DESC" ↔ descending_set h f = Some true)
    ∧ (d = " ASC" ↔ descending_set h f = Some false)
    ∧ (d = "" ↔ descending_set h f = None)
    ∧ (n = " NULLS FIRST" ↔ nullsfirst_set h f = Some true)
    ∧ (n = " NULLS LAST" ↔ nullsfirst_set h f = Some false)
    ∧ (n = "" ↔ nullsfirst_set h f = None).
Proof.
  intros Hf.
  assert (∃ base,
            AppendSQLExclude h (without_order f) excl out = Returned (tt, base)
            ∧ AppendSQLExclude h f excl out =
                Returned (tt, mkOutput
                  (buf base +:+ direction_text h f +:+ nulls_text h f)
                  (args base))) as (base & Hbase & Hrender).
  { destruct (value f) as [p|] eqn:Hv; [|destruct (table f) as [t|] eqn:Ht].
    - eexists. split; [by apply (AppendSQLExclude_literal h (without_order f) p)|].
      rewrite (AppendSQLExclude_literal h f p) by done.
      unfold direction_text at 3, nulls_text at 3. simpl.
      by rewrite !string_app_empty_r, !string_app_assoc.
    - eexists. split; [by apply (AppendSQLExclude_column h (without_order f) t)|].
      rewrite (AppendSQLExclude_column h f t) by done.
      unfold direction_text at 3, nulls_text at 3. simpl.
      by rewrite !string_app_empty_r, !string_app_assoc.
    - by destruct Hf. }
  exists base, (direction_text h f), (nulls_text h f).
  split; [exact Hbase|]. split; [exact Hrender|].
  unfold direction_text, nulls_text.
  destruct (descending_set h f) as [[]|], (nullsfirst_set h f) as [[]|];
    repeat split; intros; congruence.
Qed.

(** C2, amended: for a column field on a table [t] with effective
    qualifier [Q] (the alias if non-empty, else the name): when [Q] is among
    the excluded qualifiers, or is empty, only the column name is written;
    when [Q] is non-empty and not excluded, [Q], a dot and the column name
    are written; a nil list of excluded qualifiers renders as an empty one.
    Each identifier is written under the whitespace quoting, and the
    decorations follow. *)
Theorem qualifier_suppression (h : Heap) (f : StringField) (t : T)
    (excl : slice string) (out : Output) :
  value f = None → table f = Some t →
  (effective_qualifier t ∈ elements_of excl ∨ effective_qualifier t = "" →
   AppendSQLExclude h f excl out =
     Returned (tt, mkOutput
       (buf out +:+ quoted (name f) +:+ direction_text h f +:+ nulls_text h f)
       (args out)))
  ∧ (effective_qualifier t ∉ elements_of excl → effective_qualifier t ≠ "" →
     AppendSQLExclude h f excl out =
       Returned (tt, mkOutput
         (buf out +:+ quoted (effective_qualifier t) +:+ "." +:+
          quoted (name f) +:+ direction_text h f +:+ nulls_text h f)
         (args out)))
  ∧ AppendSQLExclude h f nil_slice out = AppendSQLExclude h f (Slice []) out.
Proof.
  intros Hv Ht. rewrite !(AppendSQLExclude_column h f t) by done.
  split; [|split; [|reflexivity]].
  - intros Hq.
    assert (exclude_loop (effective_qualifier t) (elements_of excl) = "") as ->.
    { destruct (decide (effective_qualifier t ∈ elements_of excl)) as [Hin|Hnin].
      - by apply exclude_loop_elem.
      - rewrite exclude_loop_not_elem by done. by destruct Hq. }
    reflexivity.
  - intros Hnin Hne. rewrite exclude_loop_not_elem by done.
    unfold qualifier_text. rewrite decide_True by done.
    by rewrite !string_app_assoc.
Qed.

(** C3: in the column case, the qualifier left by the exclusion (when not
    empty) and the column name are each written wrapped in double quotes
    if they contain a space or a tab, and as they are otherwise; between
    the quotes the identifier is written unchanged. *)
Theorem whitespace_quoting (h : Heap) (f : StringField) (t : T)
    (excl : slice string) (out : Output) :
  value f = None → table f = Some t →
  ∃ q n : string,
    AppendSQLExclude h f excl out =
      Returned (tt, mkOutput
        (buf out +:+ q +:+ n +:+ direction_text h f +:+ nulls_text h f)
        (args out))
    ∧ (has_whitespace (name f) → n = dquote +:+ name f +:+ dquote)
    ∧ (¬ has_whitespace (name f) → n = name f)
    ∧ (n = dquote +:+ name f +:+ dquote → has_whitespace (name f))
    ∧ (let Q := exclude_loop (effective_qualifier t) (elements_of excl) in
       (Q = "" → q = "")
       ∧ (Q ≠ "" → has_whitespace Q → q = dquote +:+ Q +:+ dquote +:+ ".")
       ∧ (Q ≠ "" → ¬ has_whitespace Q → q = Q +:+ ".")).
Proof.
  intros Hv Ht.
  exists (qualifier_text (exclude_loop (effective_qualifier t) (elements_of excl))),
    (quoted (name f)).
  split; [by apply AppendSQLExclude_column|].
  split; [apply quoted_whitespace|]. split; [apply quoted_plain|].
  split.
  { intros E. destruct (ContainsAny (name f) space_tab) eqn:Hc.
    - by apply ContainsAny_space_tab.
    - unfold quoted in E. rewrite Hc in E. by apply eq_sym, wrapped_differs in E. }
  cbv zeta. unfold qualifier_text. repeat split.
  - intros ->. reflexivity.
  - intros Hne Hw. rewrite decide_True by done.
    by rewrite quoted_whitespace, !string_app_assoc.
  - intros Hne Hw. rewrite decide_True by done. by rewrite quoted_plain.
Qed.

(** C8, amended: rendering a field that is a literal, or a column whose
    table is not the nil interface, returns without a panic, whatever the
    names, the decorations and the excluded qualifiers; in the column case
    the name is written as it is, alone or between two double quotes. *)
Theorem render_completes (h : Heap) (f : StringField)
    (excl : slice string) (out : Output) :
  value f ≠ None ∨ table f ≠ None →
  ∃ out' : Output,
    AppendSQLExclude h f excl out = Returned (tt, out')
    ∧ (∀ t, value f = None → table f = Some t →
       ∃ w : string,
         (w = "" ∨ w = dquote)
         ∧ buf out' =
             buf out +:+
             qualifier_text
               (exclude_loop (effective_qualifier t) (elements_of excl)) +:+
             w +:+ name f +:+ w +:+ direction_text h f +:+ nulls_text h f
         ∧ args out' = args out).
Proof.
  intros Hf.
  destruct (value f) as [p|] eqn:Hv; [|destruct (table f) as [t|] eqn:Ht].
  - eexists. split; [by apply (AppendSQLExclude_literal h f p)|]. discriminate.
  - eexists. split; [by apply (AppendSQLExclude_column h f t)|].
    intros t' _ [= <-]. simpl. unfold quoted.
    destruct (ContainsAny (name f) space_tab).
    + exists dquote. rewrite !string_app_assoc. auto.
    + exists "". auto.
  - by destruct Hf.
Qed.

(** What a decorator call returns: the receiver's members, except the one
    the decorator assigns; [Asc], [Desc], [NullsFirst] and [NullsLast]
    assign the address of a cell that did not exist before the call. *)
Lemma call_decorates (d : decorator) (f : StringField) (h : Heap) :
  let f' := (call d f h).1 in
  let h' := (call d f h).2 in
  value f' = value f ∧ table f' = table f ∧ name f' = name f ∧
  match d with
  | CallAs a =>
      alias f' = a ∧ descending f' = descending f ∧ nullsfirst f' = nullsfirst f
  | CallAsc =>
      descending_set h' f' = Some false ∧ nullsfirst f' = nullsfirst f ∧
      points_into (bool_cells h) (descending f') = false
  | CallDesc =>
      descending_set h' f' = Some true ∧ nullsfirst f' = nullsfirst f ∧
      points_into (bool_cells h) (descending f') = false
  | CallNullsFirst =>
      nullsfirst_set h' f' = Some true ∧ descending f' = descending f ∧
      points_into (bool_cells h) (nullsfirst f') = false
  | CallNullsLast =>
      nullsfirst_set h' f' = Some false ∧ descending f' = descending f ∧
      points_into (bool_cells h) (nullsfirst f') = false
  end.
Proof.
  assert (bool_cells h !! fresh (dom (bool_cells h)) = None) as Hfresh
    by apply not_elem_of_dom, is_fresh.
  destruct d; cbv zeta; simpl;
    unfold descending_set, nullsfirst_set, load_bool; simpl;
    rewrite ?lookup_total_insert_eq, ?Hfresh; auto 10.
Qed.

(** C5: decorator calls, on any receivers and in any number, leave every
    field that existed before them as it was: it renders after the calls
    as it rendered before them. *)
Theorem decorators_leave_fields_unchanged (h h' : Heap) (g : StringField)
    (excl : slice string) (out : Output) :
  calls h h' → allocated h g = true →
  AppendSQLExclude h' g excl out = AppendSQLExclude h g excl out.
Proof.
  intros Hcalls Hg. apply AppendSQLExclude_extends; [|done].
  by apply calls_extends.
Qed.

(** ** Further properties of rendering *)

(** Rendering reads the field through its literal cell, its table, its
    name and its two decorations only. *)
Lemma AppendSQLExclude_members h f h' f' excl out :
  value f' = value f → string_cells h' = string_cells h →
  table f' = table f → name f' = name f →
  descending_set h' f' = descending_set h f →
  nullsfirst_set h' f' = nullsfirst_set h f →
  AppendSQLExclude h' f' excl out = AppendSQLExclude h f excl out.
Proof.
  intros Hv Hs Ht Hn Hd Hnf.
  destruct (value f) as [p|] eqn:Ev; [|destruct (table f) as [t|] eqn:Et].
  - rewrite (AppendSQLExclude_literal h f p), (AppendSQLExclude_literal h' f' p)
      by congruence.
    unfold direction_text, nulls_text, load_string. by rewrite Hd, Hnf, Hs.
  - rewrite (AppendSQLExclude_column h f t), (AppendSQLExclude_column h' f' t)
      by congruence.
    unfold direction_text, nulls_text. by rewrite Hd, Hnf, Hn.
  - rewrite (AppendSQLExclude_nil_table h f), (AppendSQLExclude_nil_table h' f')
      by congruence.
    reflexivity.
Qed.

(** X1: rendering only appends.  Either the call panics whatever the
    builder holds, or there are a text and a list of values, the same for
    every builder and argument slice, that the call appends to them. *)
Theorem AppendSQLExclude_appends (h : Heap) (f : StringField)
    (excl : slice string) :
  (∀ out, AppendSQLExclude h f excl out = Panicked)
  ∨ ∃ (text : string) (vals : list Any), ∀ out, ∃ out',
      AppendSQLExclude h f excl out = Returned (tt, out')
      ∧ buf out' = buf out +:+ text
      ∧ elements_of (args out') = elements_of (args out) ++ vals.
Proof.
  destruct (value f) as [p|] eqn:Ev; [|destruct (table f) as [t|] eqn:Et].
  - right. exists ("?" +:+ direction_text h f +:+ nulls_text h f),
      [AnyString (load_string h p)].
    intros out. eexists. split; [by apply AppendSQLExclude_literal|].
    split; reflexivity.
  - right.
    exists (qualifier_text (exclude_loop (effective_qualifier t) (elements_of excl))
            +:+ quoted (name f) +:+ direction_text h f +:+ nulls_text h f), [].
    intros out. eexists. split; [by apply AppendSQLExclude_column|].
    split; [reflexivity|]. simpl. by rewrite app_nil_r.
  - left. intros out. by apply AppendSQLExclude_nil_table.
Qed.

(** X3: the list of excluded qualifiers matters only through whether it
    holds the effective qualifier of the field's table: two lists that
    agree on that (reordered, with repetitions, with other names) give the
    same render. *)
Theorem exclusion_by_membership (h : Heap) (f : StringField)
    (excl1 excl2 : slice string) (out : Output) :
  (∀ t, table f = Some t →
     (effective_qualifier t ∈ elements_of excl1 ↔
      effective_qualifier t ∈ elements_of excl2)) →
  AppendSQLExclude h f excl1 out = AppendSQLExclude h f excl2 out.
Proof.
  intros Hq.
  destruct (value f) as [p|] eqn:Ev; [|destruct (table f) as [t|] eqn:Et].
  - by rewrite !(AppendSQLExclude_literal h f p).
  - rewrite !(AppendSQLExclude_column h f t) by done.
    specialize (Hq t eq_refl).
    destruct (decide (effective_qualifier t ∈ elements_of excl1)) as [Hin|Hnin].
    + by rewrite !exclude_loop_elem by tauto.
    + by rewrite !exclude_loop_not_elem by tauto.
  - by rewrite !AppendSQLExclude_nil_table.
Qed.


(** X11: the alias of the table takes precedence: when it is not empty,
    the name of the table is not written, so two tables with that alias
    give the same render. *)
Theorem table_alias_precedence (h : Heap) (f : StringField) (t t' : T)
    (excl : slice string) (out : Output) :
  GetAlias t ≠ "" → GetAlias t' = GetAlias t →
  AppendSQLExclude h (on_table f (Some t')) excl out =
  AppendSQLExclude h (on_table f (Some t)) excl out.
Proof.
  intros Hne Ha.
  destruct (value f) as [p|] eqn:Ev.
  - by rewrite !(AppendSQLExclude_literal h _ p).
  - rewrite (AppendSQLExclude_column h (on_table f (Some t')) t') by done.
    rewrite (AppendSQLExclude_column h (on_table f (Some t)) t) by done.
    unfold effective_qualifier. rewrite Ha, !decide_False by done.
    reflexivity.
Qed.

(** *** Markers and arguments *)





(** *** Names are told apart *)

Lemma string_app_inv_tail (s1 s2 t : string) :
  s1 +:+ t = s2 +:+ t → s1 = s2.
Proof.
  revert s2. induction s1 as [|c s1 IH]; intros [|d s2] E; [done| | |].
  - change ("" +:+ t) with t in E. apply (f_equal String.length) in E.
    rewrite (string_app_length (String d s2) t) in E. simpl in E. lia.
  - change ("" +:+ t) with t in E. apply (f_equal String.length) in E.
    rewrite (string_app_length (String c s1) t) in E. simpl in E. lia.
  - change (String c (s1 +:+ t) = String d (s2 +:+ t)) in E.
    injection E as -> E. f_equal. by apply IH.
Qed.

Lemma has_whitespace_app (s1 s2 : string) :
  has_whitespace (s1 +:+ s2) ↔ has_whitespace s1 ∨ has_whitespace s2.
Proof.
  unfold has_whitespace.
  assert (String.list_ascii_of_string (s1 +:+ s2) =
          String.list_ascii_of_string s1 ++ String.list_ascii_of_string s2) as ->.
  { induction s1 as [|c s1 IH]; [reflexivity|].
    change (c :: String.list_ascii_of_string (s1 +:+ s2) =
            c :: (String.list_ascii_of_string s1 ++ String.list_ascii_of_string s2)).
    by rewrite IH. }
  rewrite !elem_of_app. tauto.
Qed.

(** The text written for an identifier determines the identifier. *)
Lemma quoted_inj (s1 s2 : string) : quoted s1 = quoted s2 → s1 = s2.
Proof.
  assert (∀ a b, ContainsAny a space_tab = true →
            ContainsAny b space_tab = false →
            dquote +:+ a +:+ dquote ≠ b) as Hmixed.
  { intros a b Ha Hb E. apply ContainsAny_space_tab in Ha.
    assert (has_whitespace b) as Hw.
    { rewrite <- E, !has_whitespace_app. auto. }
    apply ContainsAny_space_tab in Hw. congruence. }
  unfold quoted.
  destruct (ContainsAny s1 space_tab) eqn:E1, (ContainsAny s2 space_tab) eqn:E2;
    intros E; [| | |done].
  - apply (inj _) in E. by apply string_app_inv_tail in E.
  - by apply Hmixed in E.
  - by apply eq_sym, Hmixed in E.
Qed.

(** X7: two columns of one table with the same decorations (each possibly
    set by its own decorator call) are rendered alike only if they have the
    same name: the quoting never makes two names coincide. *)
Theorem column_names_told_apart (h : Heap) (f g : StringField) (t : T)
    (excl : slice string) (out : Output) :
  value f = None → value g = None →
  table f = Some t → table g = Some t →
  descending_set h g = descending_set h f →
  nullsfirst_set h g = nullsfirst_set h f →
  AppendSQLExclude h f excl out = AppendSQLExclude h g excl out →
  name f = name g.
Proof.
  intros Hvf Hvg Htf Htg Hd Hn.
  rewrite (AppendSQLExclude_column h f t), (AppendSQLExclude_column h g t) by done.
  unfold direction_text, nulls_text.
  rewrite Hd, Hn. intros [= E].
  do 2 apply (inj _) in E.
  rewrite <- !string_app_assoc in E.
  do 2 apply string_app_inv_tail in E. by apply quoted_inj.
Qed.

(** X6: whatever the operand [v], [In] makes a predicate with two markers
    and two operands, the first of which is the receiver. *)
Theorem In_arity (f : StringField) (v : Any) :
  arity (In_ f v) = (2, 2)
  ∧ ∃ w, Values (In_ f v) = Slice [AnyStringField f; w].
Proof. destruct v; split; try reflexivity; eexists; reflexivity. Qed.

(** *** Chains of decorator calls *)

Lemma decoration_extends h h' (p : option loc) :
  extends h h' → points_into (bool_cells h) p = true →
  load_bool h' <$> p = load_bool h <$> p.
Proof.
  intros [_ Hb] Hp. destruct p as [l|]; [|done]. simpl. f_equal.
  by apply points_into_load.
Qed.

Lemma points_into_new_bool b h :
  points_into (bool_cells (new_bool b h).2) (Some (new_bool b h).1) = true.
Proof. simpl. by rewrite lookup_insert_eq. Qed.

(** One call on a receiver whose pointers are allocated. *)
Lemma call_invariant d f h :
  allocated h f = true →
  allocated (call d f h).2 (call d f h).1 = true
  ∧ string_cells (call d f h).2 = string_cells h
  ∧ value (call d f h).1 = value f
  ∧ table (call d f h).1 = table f
  ∧ name (call d f h).1 = name f
  ∧ descending_set (call d f h).2 (call d f h).1 =
      direction_after [d] (descending_set h f)
  ∧ nullsfirst_set (call d f h).2 (call d f h).1 =
      nulls_after [d] (nullsfirst_set h f).
Proof.
  intros Hf. pose proof Hf as (Hv & Hd & Hn)%allocated_spec.
  destruct d as [a| | | |]; [by repeat split| | | |].
  1: pose proof (call_extends CallAsc f h) as Hext.
  2: pose proof (call_extends CallDesc f h) as Hext.
  3: pose proof (call_extends CallNullsFirst f h) as Hext.
  4: pose proof (call_extends CallNullsLast f h) as Hext.
  all: pose proof Hext as [Hs Hb].
  all: simpl in Hext, Hs, Hb |- *.
  all: split; [apply allocated_spec; simpl; rewrite ?lookup_insert_eq;
               repeat split; try done;
               eapply points_into_weaken; eassumption|].
  all: repeat split; unfold descending_set, nullsfirst_set, load_bool; simpl;
         rewrite ?lookup_total_insert_eq; try reflexivity.
  all: by apply (decoration_extends h _ _ Hext).
Qed.

Lemma direction_after_cons d ds cur :
  direction_after (d :: ds) cur = direction_after ds (direction_after [d] cur).
Proof. by destruct d. Qed.

Lemma nulls_after_cons d ds cur :
  nulls_after (d :: ds) cur = nulls_after ds (nulls_after [d] cur).
Proof. by destruct d. Qed.

(** A chain of calls on a receiver whose pointers are allocated. *)
Lemma chain_invariant ds f h :
  allocated h f = true →
  allocated (chain ds f h).2 (chain ds f h).1 = true
  ∧ string_cells (chain ds f h).2 = string_cells h
  ∧ value (chain ds f h).1 = value f
  ∧ table (chain ds f h).1 = table f
  ∧ name (chain ds f h).1 = name f
  ∧ descending_set (chain ds f h).2 (chain ds f h).1 =
      direction_after ds (descending_set h f)
  ∧ nullsfirst_set (chain ds f h).2 (chain ds f h).1 =
      nulls_after ds (nullsfirst_set h f).
Proof.
  revert f h. induction ds as [|d ds IH]; intros f h Hf; [done|].
  destruct (call_invariant d f h Hf) as (Ha & Hs & Hv & Ht & Hn & Hd & Hnf).
  rewrite direction_after_cons, nulls_after_cons.
  simpl. destruct (call d f h) as [f1 h1]. simpl in *.
  destruct (IH f1 h1 Ha) as (Ha' & Hs' & Hv' & Ht' & Hn' & Hd' & Hnf').
  repeat split; congruence.
Qed.

Lemma String_allocated (v : string) (h : Heap) :
  allocated (String_ v h).2 (String_ v h).1 = true
  ∧ value (String_ v h).1 = Some (new_string v h).1
  ∧ string_cells (String_ v h).2 !!! (new_string v h).1 = v.
Proof.
  unfold allocated. simpl.
  by rewrite lookup_insert_eq, lookup_total_insert_eq.
Qed.

(** X4: the field returned by a chain of decorator calls renders as the
    receiver without decorations, followed by the direction of the last
    [Asc] or [Desc] of the chain (the receiver's own if there is none) and
    the nulls ordering of the last [NullsFirst] or [NullsLast] (likewise);
    [As] changes nothing of it. *)
Theorem chain_renders_last_decorations (ds : list decorator) (h : Heap)
    (f : StringField) (excl : slice string) (out : Output) :
  allocated h f = true →
  AppendSQLExclude (chain ds f h).2 (chain ds f h).1 excl out =
    match AppendSQLExclude h (without_order f) excl out with
    | Returned (_, base) =>
        Returned (tt, mkOutput
          (buf base +:+
           direction_word (direction_after ds (descending_set h f)) +:+
           nulls_word (nulls_after ds (nullsfirst_set h f)))
          (args base))
    | Panicked => Panicked
    end.
Proof.
  intros Hf.
  destruct (chain_invariant ds f h Hf) as (_ & Hs & Hv & Ht & Hn & Hd & Hnf).
  destruct (value f) as [p|] eqn:Ev; [|destruct (table f) as [t|] eqn:Et].
  - rewrite (AppendSQLExclude_literal _ _ p) by done.
    rewrite (AppendSQLExclude_literal h (without_order f) p) by done.
    unfold direction_text, nulls_text, load_string. rewrite Hd, Hnf, Hs. simpl.
    by rewrite !string_app_empty_r, !string_app_assoc.
  - rewrite (AppendSQLExclude_column _ _ t) by done.
    rewrite (AppendSQLExclude_column h (without_order f) t) by done.
    unfold direction_text, nulls_text. rewrite Hd, Hnf, Hn. simpl.
    by rewrite !string_app_empty_r, !string_app_assoc.
  - rewrite (AppendSQLExclude_nil_table _ _) by done.
    by rewrite (AppendSQLExclude_nil_table h (without_order f)) by done.
Qed.

(** X8: after a chain of decorator calls, [GetName] returns the name of
    the receiver and [GetAlias] the argument of the last [As] of the chain
    (the receiver's alias if there is none). *)
Theorem chain_alias_and_name (ds : list decorator) (h : Heap) (f : StringField) :
  StringField_GetAlias (chain ds f h).1 = alias_after ds (StringField_GetAlias f)
  ∧ StringField_GetName (chain ds f h).1 = StringField_GetName f.
Proof.
  unfold StringField_GetAlias, StringField_GetName.
  revert f h. induction ds as [|d ds IH]; intros f h; [done|].
  simpl. destruct (call d f h) as [f1 h1] eqn:E.
  destruct (IH f1 h1) as [-> ->].
  destruct d; simpl in E; injection E as <- <-; done.
Qed.

(** X9: a literal [String(v)] followed by any chain of decorator calls
    renders as "?", the direction and the nulls ordering of the chain, and
    appends exactly [v]. *)
Theorem literal_chain_renders (v : string) (ds : list decorator) (h : Heap)
    (excl : slice string) (out : Output) :
  AppendSQLExclude
    (chain ds (String_ v h).1 (String_ v h).2).2
    (chain ds (String_ v h).1 (String_ v h).2).1 excl out =
  Returned (tt, mkOutput
    (buf out +:+ "?" +:+ direction_word (direction_after ds None) +:+
     nulls_word (nulls_after ds None))
    (append (args out) (AnyString v))).
Proof.
  destruct (String_allocated v h) as (Ha & Hp & Hload).
  destruct (chain_invariant ds _ _ Ha) as (_ & Hs & Hv & _ & _ & Hd & Hnf).
  rewrite Hp in Hv.
  rewrite (AppendSQLExclude_literal _ _ _ _ _ Hv).
  unfold direction_text, nulls_text, load_string.
  by rewrite Hd, Hnf, Hs, Hload.
Qed.

(** X10: a column [NewStringField(n, t)] followed by any chain of
    decorator calls renders as the qualifier left by the exclusion, the
    name, the direction and the nulls ordering of the chain, and appends
    no argument. *)
Theorem column_chain_renders (n : string) (t : T) (ds : list decorator)
    (h : Heap) (excl : slice string) (out : Output) :
  AppendSQLExclude
    (chain ds (NewStringField n (Some t)) h).2
    (chain ds (NewStringField n (Some t)) h).1 excl out =
  Returned (tt, mkOutput
    (buf out +:+
     qualifier_text (exclude_loop (effective_qualifier t) (elements_of excl)) +:+
     quoted n +:+ direction_word (direction_after ds None) +:+
     nulls_word (nulls_after ds None))
    (args out)).
Proof.
  assert (allocated h (NewStringField n (Some t)) = true) as Ha by done.
  destruct (chain_invariant ds _ _ Ha) as (_ & _ & Hv & Ht & Hn & Hd & Hnf).
  rewrite (AppendSQLExclude_column _ _ t) by done.
  unfold direction_text, nulls_text. by rewrite Hd, Hnf, Hn.
Qed.

End Field.

(** ** The properties on concrete fields

    The fields below are on tables given by name and alias; the builder
    starts empty and the argument slice nil. *)

Abbreviation users := (mkNamedTable "users" "u").
Abbreviation unnamed := (mkNamedTable "" "").
Abbreviation start :=
  (@mkOutput NamedTable TextQuery (list string) nat "" nil_slice).
Abbreviation abcd := (@String_ NamedTable "abcd" empty_heap).

(** Section 8, example 8 of the specification. *)
Example users_name_qualified :
  AppendSQLExclude empty_heap (NewStringField "name" (Some users)) (Slice []) start
    = Returned (tt, mkOutput "u.name" nil_slice)
  ∧ AppendSQLExclude empty_heap (NewStringField "name" (Some users)) (Slice ["u"]) start
    = Returned (tt, mkOutput "name" nil_slice).
Proof. split; vm_compute; reflexivity. Qed.

(** C2 as stated fails on a table whose alias and name are both empty: the
    qualifier [Q] is empty and not among the excluded ones, and the column
    is written without the dot, not as [Q] followed by a dot and the name. *)
Lemma empty_qualifier_writes_no_dot :
(effective_qualifier unnamed ∉ elements_of (Slice ["u"]))
  ∧ AppendSQLExclude empty_heap (NewStringField "name" (Some unnamed))
      (Slice ["u"]) start
    = Returned (tt, mkOutput "name" nil_slice)
  ∧ "name" ≠ effective_qualifier unnamed +:+ "." +:+ "name".
Proof.
  split; [|split].
  - change ("" ∉ ["u"]). apply not_elem_of_cons.
    split; [discriminate | apply not_elem_of_nil].
  - vm_compute. reflexivity.
  - vm_compute. discriminate.
Qed.

(** C2, amended, on the column [name] of the table [users] aliased [u]:
    excluded, then not excluded. *)
Lemma qualifier_suppression_users :
  value (NewStringField "name" (Some users)) = None
  ∧ table (NewStringField "name" (Some users)) = Some users
  ∧ AppendSQLExclude empty_heap (NewStringField "name" (Some users))
      (Slice ["orders"; "u"]) start
    = Returned (tt, mkOutput "name" nil_slice)
  ∧ AppendSQLExclude empty_heap (NewStringField "name" (Some users))
      (Slice ["orders"]) start
    = Returned (tt, mkOutput "u.name" nil_slice).
Proof.
  split; [reflexivity|]. split; [reflexivity|].
  split.
  - destruct (qualifier_suppression empty_heap
                (NewStringField "name" (Some users)) users
                (Slice ["orders"; "u"]) start eq_refl eq_refl) as (Hin & _).
    apply Hin. left. change ("u" ∈ ["orders"; "u"]).
    apply elem_of_cons. right. apply elem_of_cons. by left.
  - destruct (qualifier_suppression empty_heap
                (NewStringField "name" (Some users)) users
                (Slice ["orders"]) start eq_refl eq_refl) as (_ & Hout & _).
    apply Hout; [|discriminate].
    change ("u" ∉ ["orders"]). apply not_elem_of_cons.
    split; [discriminate | apply not_elem_of_nil].
Defined.

(** C3 on the column [first name] of the table [all users]: both
    identifiers contain a space and both are wrapped. *)
Lemma whitespace_quoting_first_name :
  value (NewStringField "first name" (Some (mkNamedTable "all users" ""))) = None
  ∧ table (NewStringField "first name" (Some (mkNamedTable "all users" "")))
      = Some (mkNamedTable "all users" "")
  ∧ ∃ q n : string,
      AppendSQLExclude empty_heap
        (NewStringField "first name" (Some (mkNamedTable "all users" "")))
        nil_slice start
      = Returned (tt, mkOutput (q +:+ n) nil_slice)
      ∧ n = dquote +:+ "first name" +:+ dquote
      ∧ q = dquote +:+ "all users" +:+ dquote +:+ ".".
Proof.
  split; [reflexivity|]. split; [reflexivity|].
  destruct (whitespace_quoting empty_heap
              (NewStringField "first name" (Some (mkNamedTable "all users" "")))
              (mkNamedTable "all users" "") nil_slice start eq_refl eq_refl)
    as (q & n & Hr & Hn & _ & _ & _ & Hq & _).
  exists q, n. split; [|split].
  - rewrite Hr. change (direction_text _ _) with "". change (nulls_text _ _) with "".
    by rewrite !string_app_empty_r.
  - apply Hn. left. vm_compute. apply list_elem_of_lookup. by exists 5.
  - apply Hq; [discriminate|]. left. vm_compute.
    apply list_elem_of_lookup. by exists 3.
Defined.

(** C8 as stated fails on a column whose table is the nil interface:
    the call of [GetAlias] on it panics. *)
Lemma nil_table_panics :
  AppendSQLExclude empty_heap (@NewStringField NamedTable "name" None)
    nil_slice start
  = Panicked.
Proof. vm_compute. reflexivity. Qed.

(** C8, amended, on a column whose name contains a double quote: the
    render returns and the name is written as it is. *)
Lemma render_completes_quote_in_name :
  (value (NewStringField ("first" +:+ dquote +:+ "name") (Some users)) ≠ None
   ∨ table (NewStringField ("first" +:+ dquote +:+ "name") (Some users)) ≠ None)
  ∧ ∃ out',
      AppendSQLExclude empty_heap
        (NewStringField ("first" +:+ dquote +:+ "name") (Some users))
        nil_slice start
      = Returned (tt, out')
      ∧ buf out' = "u.first" +:+ dquote +:+ "name".
Proof.
  assert (value (NewStringField ("first" +:+ dquote +:+ "name") (Some users)) ≠ None
          ∨ table (NewStringField ("first" +:+ dquote +:+ "name") (Some users)) ≠ None)
    as Hf by (right; discriminate).
  split; [exact Hf|].
  destruct (render_completes empty_heap
              (NewStringField ("first" +:+ dquote +:+ "name") (Some users))
              nil_slice start Hf) as (out' & Hr & _).
  exists out'. split; [exact Hr|].
  vm_compute in Hr. injection Hr as <-. vm_compute. reflexivity.
Defined.

(** C5 on the literal [String("abcd")]: after the chain
    [.Desc().NullsFirst().As("x").Asc()] the literal still renders as "?",
    and the field returned by the chain renders with both suffixes. *)
Lemma decorators_leave_literal_unchanged :
  @calls NamedTable abcd.2
    (chain [CallDesc; CallNullsFirst; CallAs "x"; CallAsc] abcd.1 abcd.2).2
  ∧ allocated abcd.2 abcd.1 = true
  ∧ AppendSQLExclude
      (chain [CallDesc; CallNullsFirst; CallAs "x"; CallAsc] abcd.1 abcd.2).2
      abcd.1 nil_slice start
    = Returned (tt, mkOutput "?" (Slice [AnyString "abcd"]))
  ∧ AppendSQLExclude
      (chain [CallDesc; CallNullsFirst; CallAs "x"; CallAsc] abcd.1 abcd.2).2
      (chain [CallDesc; CallNullsFirst; CallAs "x"; CallAsc] abcd.1 abcd.2).1
      nil_slice start
    = Returned (tt, mkOutput "? ASC NULLS FIRST" (Slice [AnyString "abcd"])).
Proof.
  split; [apply calls_chain|]. split; [vm_compute; reflexivity|]. split.
  - rewrite (decorators_leave_fields_unchanged abcd.2 _ abcd.1 nil_slice start
               (calls_chain _ _ _)) by (vm_compute; reflexivity).
    vm_compute. reflexivity.
  - vm_compute. reflexivity.
Defined.

(** ** The further properties on concrete fields *)

Abbreviation abcd_desc := (Desc abcd.1 abcd.2).
Abbreviation first_name_desc :=
  (Desc (NewStringField "first name" (Some users)) empty_heap).
Abbreviation fn_desc :=
  (Desc (As (NewStringField "first name" (Some users)) "fn") first_name_desc.2).
Abbreviation no_table_desc :=
  (Desc (@NewStringField NamedTable "name" None) empty_heap).
Abbreviation users_name_desc_nulls_first :=
  (chain [CallDesc; CallNullsFirst] (NewStringField "name" (Some users)) empty_heap).


(** X3 on the column [name] of [users]: two lists that both hold [u]. *)
Lemma exclusion_by_membership_users :
  (∀ t, table (NewStringField "name" (Some users)) = Some t →
     (effective_qualifier t ∈ elements_of (Slice ["orders"; "u"]) ↔
      effective_qualifier t ∈ elements_of (Slice ["u"; "u"; "items"])))
  ∧ AppendSQLExclude empty_heap (NewStringField "name" (Some users))
      (Slice ["orders"; "u"]) start
    = AppendSQLExclude empty_heap (NewStringField "name" (Some users))
      (Slice ["u"; "u"; "items"]) start.
Proof.
  assert (∀ t, table (NewStringField "name" (Some users)) = Some t →
     (effective_qualifier t ∈ elements_of (Slice ["orders"; "u"]) ↔
      effective_qualifier t ∈ elements_of (Slice ["u"; "u"; "items"]))) as Hq.
  { intros t [= <-]. change ("u" ∈ ["orders"; "u"] ↔ "u" ∈ ["u"; "u"; "items"]).
    rewrite !elem_of_cons. tauto. }
  split; [exact Hq|].
  exact (exclusion_by_membership empty_heap (NewStringField "name" (Some users))
           (Slice ["orders"; "u"]) (Slice ["u"; "u"; "items"]) start Hq).
Defined.

(** X4 on [String("abcd").Desc()] as receiver of [.NullsLast().As("x")]:
    the direction of the receiver is kept. *)
Lemma chain_renders_last_decorations_literal :
  allocated abcd_desc.2 abcd_desc.1 = true
  ∧ AppendSQLExclude
      (chain [CallNullsLast; CallAs "x"] abcd_desc.1 abcd_desc.2).2
      (chain [CallNullsLast; CallAs "x"] abcd_desc.1 abcd_desc.2).1
      nil_slice start
    = Returned (tt, mkOutput "? DESC NULLS LAST" (Slice [AnyString "abcd"])).
Proof.
  split; [vm_compute; reflexivity|].
  rewrite (chain_renders_last_decorations [CallNullsLast; CallAs "x"]
             abcd_desc.2 abcd_desc.1 nil_slice start)
    by (vm_compute; reflexivity).
  vm_compute. reflexivity.
Defined.


(** X7 on the column [first name] of [users] and the same column under
    the alias [fn], each decorated by its own call of [Desc]: two cells,
    one decoration. *)
Lemma column_names_told_apart_alias :
  descending first_name_desc.1 ≠ descending fn_desc.1
  ∧ descending_set fn_desc.2 fn_desc.1 = descending_set fn_desc.2 first_name_desc.1
  ∧ nullsfirst_set fn_desc.2 fn_desc.1 = nullsfirst_set fn_desc.2 first_name_desc.1
  ∧ AppendSQLExclude fn_desc.2 first_name_desc.1 nil_slice start
    = AppendSQLExclude fn_desc.2 fn_desc.1 nil_slice start
  ∧ name first_name_desc.1 = name fn_desc.1.
Proof.
  split; [vm_compute; discriminate|].
  split; [vm_compute; reflexivity|]. split; [reflexivity|].
  split; [vm_compute; reflexivity|].
  apply (column_names_told_apart fn_desc.2 first_name_desc.1 fn_desc.1
           users nil_slice start eq_refl eq_refl eq_refl eq_refl).
  - vm_compute. reflexivity.
  - reflexivity.
  - vm_compute. reflexivity.
Defined.

(** X11 on two tables aliased [u], named [users] and [people]. *)
Lemma table_alias_precedence_users :
  GetAlias users ≠ "" ∧ GetAlias (mkNamedTable "people" "u") = GetAlias users
  ∧ AppendSQLExclude empty_heap
      (on_table (NewStringField "name" None) (Some (mkNamedTable "people" "u")))
      nil_slice start
    = AppendSQLExclude empty_heap
      (on_table (NewStringField "name" None) (Some users)) nil_slice start.
Proof.
  assert (GetAlias users ≠ "") as Hne by discriminate.
  split; [exact Hne|]. split; [reflexivity|].
  exact (table_alias_precedence empty_heap (NewStringField "name" None)
           users (mkNamedTable "people" "u") nil_slice start Hne eq_refl).
Defined.

(** C4 as stated fails on [NewStringField("name", nil).Desc()]: the
    descending decoration is set true, yet the call of [GetAlias] on the
    nil table panics before any suffix is written. *)
Lemma nil_table_desc_writes_no_suffix :
  descending_set no_table_desc.2 no_table_desc.1 = Some true
  ∧ AppendSQLExclude no_table_desc.2 no_table_desc.1 nil_slice start = Panicked.
Proof. split; vm_compute; reflexivity. Qed.

(** C4, amended, on the column [name] of [users] after [.Desc().NullsFirst()]:
    the render is that of the column followed by both suffixes. *)
Lemma order_nulls_suffix_users :
  (value users_name_desc_nulls_first.1 ≠ None
   ∨ table users_name_desc_nulls_first.1 ≠ None)
  ∧ AppendSQLExclude users_name_desc_nulls_first.2
      (without_order users_name_desc_nulls_first.1) (Slice []) start
    = Returned (tt, mkOutput "u.name" nil_slice)
  ∧ AppendSQLExclude users_name_desc_nulls_first.2
      users_name_desc_nulls_first.1 (Slice []) start
    = Returned (tt, mkOutput "u.name DESC NULLS FIRST" nil_slice).
Proof.
  assert (value users_name_desc_nulls_first.1 ≠ None
          ∨ table users_name_desc_nulls_first.1 ≠ None) as Hf
    by (right; vm_compute; discriminate).
  split; [exact Hf|].
  destruct (order_nulls_suffix users_name_desc_nulls_first.2
              users_name_desc_nulls_first.1 (Slice []) start Hf)
    as (base & d & n & Hbase & Hrender & Hd & _ & _ & Hn & _).
  assert (d = " DESC") as -> by (apply Hd; vm_compute; reflexivity).
  assert (n = " NULLS FIRST") as -> by (apply Hn; vm_compute; reflexivity).
  assert (base = mkOutput "u.name" nil_slice) as ->.
  { vm_compute in Hbase. by injection Hbase as <-. }
  split; [exact Hbase|]. rewrite Hrender. vm_compute. reflexivity.
Defined.
